(** * Decoded diagnostics of the host context

    A verification development for [lib/host_context/diagnostic.cc]: the
    [DecodedDiagnostic] value, its rendering through [operator<<], and the
    emission path [EmitError] that decodes the location carried by an
    execution context and hands the diagnostic to the host.

    The C++ code writes to an output stream, reads the execution context
    through a reference and calls the host through a pointer.  The stream
    is modelled by the text written so far, the memory by finite maps from
    addresses to objects, and [EmitError] by a function in a state monad
    with failure (a dereference of an address that holds no object has no
    behaviour). *)

From Stdlib Require Import Ascii.
From stdpp Require Import base option strings pretty list gmap.

Local Open Scope string_scope.
Local Open Scope list_scope.
Local Open Scope N_scope.

(** ** Output streams

    [raw_ostream] is an append-only sink of characters; what the code can
    observe of it is the text accumulated so far. *)

Record raw_ostream : Type := OStream { str : string }.

(** The overload set of [operator<<] is a type class: one instance per type
    that the code streams. *)
Class Streamable (A : Type) : Type :=
  stream_out : raw_ostream -> A -> raw_ostream.

#[global] Hint Mode Streamable ! : typeclass_instances.

Notation "os << a" := (stream_out os a)
  (at level 40, left associativity, format "os  <<  a").

(** [os << "literal"], [os << std::string] and [os << string_view]. *)
#[global] Instance string_Streamable : Streamable string :=
  fun os s => OStream (str os +:+ s).

(** [os << unsigned]: the decimal digits, most significant first, no
    padding, ["0"] for zero. *)
#[global] Instance unsigned_Streamable : Streamable N :=
  fun os n => OStream (str os +:+ pretty n).

(** [StrCat(a)]: stream the argument into an empty string stream and take
    what was written. *)
Definition StrCat {A : Type} `{Streamable A} (a : A) : string :=
  str (OStream "" << a).

(** ** Data model *)

(** Modelled from the spec: [DecodedLocation] is declared in
    [tfrt/host_context/location.h], which is not among the sources.  Its
    three fields are the ones [operator<<] reads; the data model gives them
    as [{ filename: string, line: unsigned, column: unsigned }]. *)
Record DecodedLocation : Type := mkDecodedLocation {
  filename : string;
  line : N;
  column : N
}.

(** Modelled from the spec: [DecodedDiagnostic] is declared in
    [tfrt/host_context/diagnostic.h], which is not among the sources.  The
    code tests [diag.location] for presence and dereferences it, and streams
    [diag.message]; the data model gives
    [{ location: optional<DecodedLocation>, message: string }]. *)
Record DecodedDiagnostic : Type := mkDecodedDiagnostic {
  location : option DecodedLocation;
  message : string
}.

(** Modelled from the spec: the constructor
    [DecodedDiagnostic(decoded_loc, message)] that [EmitError] calls is
    defined in the header.  It is the construction from an explicit
    (location, message) pair: both are stored as given. *)
Definition DecodedDiagnostic_of_location
    (loc : option DecodedLocation) (msg : string) : DecodedDiagnostic :=
  {| location := loc; message := msg |}.

(** [DecodedDiagnostic::DecodedDiagnostic(const Error& error)
      : message(StrCat(error)) {}]

    [location] is not in the initialiser list, so it is default-constructed:
    an empty optional. *)
Definition DecodedDiagnostic_of_Error {Error : Type} `{Streamable Error}
    (error : Error) : DecodedDiagnostic :=
  {| location := None; message := StrCat error |}.

(** [diag.location = loc]: assignment to the [location] member after
    construction. *)
Definition set_location (loc : DecodedLocation) (diag : DecodedDiagnostic)
    : DecodedDiagnostic :=
  {| location := Some loc; message := message diag |}.

(** [raw_ostream& operator<<(raw_ostream& os, const DecodedDiagnostic& diag)] *)
#[global] Instance DecodedDiagnostic_Streamable : Streamable DecodedDiagnostic :=
  fun os diag =>
    let os :=
      match location diag with
      | Some loc =>
          os << filename loc << ":" << line loc << ":" << column loc << ": "
      | None =>
          os << "UnknownLocation: "
      end in
    os << message diag.

(** The rendering of a diagnostic ([format] in the specification): what
    [operator<<] writes to a fresh stream. *)
Definition format (diag : DecodedDiagnostic) : string := StrCat diag.

(** The text that stands before the message of a rendered diagnostic. *)
Definition prefix (loc : option DecodedLocation) : string :=
  match loc with
  | Some loc =>
      filename loc +:+ ":" +:+ pretty (line loc) +:+ ":"
        +:+ pretty (column loc) +:+ ": "
  | None => "UnknownLocation: "
  end.

(** Character classes of the rendered text: the separator that
    [operator<<] writes between the fields, and the characters that
    [os << unsigned] produces. *)
Definition is_colon (ch : ascii) : bool := Ascii.eqb ch ":"%char.

Definition is_digit (ch : ascii) : bool :=
  (48 <=? N_of_ascii ch) && (N_of_ascii ch <=? 57).

Fixpoint all_chars (P : ascii -> bool) (s : string) : bool :=
  match s with
  | EmptyString => true
  | String ch s' => P ch && all_chars P s'
  end.

(** A filename in which the separator does not occur. *)
Definition colon_free (s : string) : bool :=
  all_chars (fun ch => negb (is_colon ch)) s.

(** The filename of a diagnostic, if it has one, is free of the
    separator. *)
Definition plain_filename (diag : DecodedDiagnostic) : Prop :=
  match location diag with
  | Some loc => colon_free (filename loc) = true
  | None => True
  end.

(** ** Locations

    The execution context carries a location token: an opaque value that is
    cheap to copy and is resolved to a position only when a diagnostic is
    built.  The handler that resolves tokens is an interface; the token
    type is its parameter. *)

(** Modelled from the spec: what resolving a token gives, a
    filename/line/column triple or nothing usable. *)
Inductive Resolution : Type :=
  | Resolved (f : string) (l c : N)
  | Unresolvable.

(** Modelled from the spec: the resolution of tokens, a function of the
    token alone. *)
Class LocationHandler (LocationToken : Type) : Type :=
  resolve : LocationToken -> Resolution.

#[global] Hint Mode LocationHandler ! : typeclass_instances.

(** Modelled from the spec: [Location::Decode] is declared in
    [tfrt/host_context/location.h], which is not among the sources.  The
    contract of the location decoder is followed: an absent token gives
    [None]; a present token is resolved to a filename/line/column triple;
    a token that cannot be resolved degrades to [None]. *)
Definition Decode {LocationToken : Type}
    {locations : LocationHandler LocationToken}
    (token : option LocationToken) : option DecodedLocation :=
  match token with
  | None => None
  | Some t =>
      match resolve t with
      | Resolved f l c => Some (mkDecodedLocation f l c)
      | Unresolvable => None
      end
  end.

(** ** Memory

    [EmitError] receives the execution context by reference and reaches the
    host through a pointer: both objects live in the caller's memory. *)

Abbreviation addr := N.

(** Modelled from the spec: [ExecutionContext] is declared in
    [tfrt/host_context/execution_context.h], which is not among the
    sources.  It holds what [EmitError] reads of it: the location token
    behind [location()], which may be absent, and the pointer behind
    [host()]. *)
Record ExecutionContext (LocationToken : Type) : Type := mkExecutionContext {
  ctx_location : option LocationToken;
  ctx_host : addr
}.

Arguments mkExecutionContext {LocationToken} _ _.
Arguments ctx_location {LocationToken} _.
Arguments ctx_host {LocationToken} _.

(** Modelled from the spec: a diagnostic handler is any callable that
    accepts a diagnostic.  It acts on a store of its own (a log, an error
    channel, a test probe); [None] is a handler that failed. *)
Definition DiagHandler (SinkStore : Type) : Type :=
  DecodedDiagnostic -> SinkStore -> option SinkStore.

(** Modelled from the spec: [HostContext] is declared in
    [tfrt/host_context/host_context.h], which is not among the sources.  It
    holds the registered diagnostic handler, which may be unset. *)
Record HostContext (SinkStore : Type) : Type := mkHostContext {
  diag_handler : option (DiagHandler SinkStore)
}.

Arguments mkHostContext {SinkStore} _.
Arguments diag_handler {SinkStore} _.

(** The state the emission path runs in: the objects it reads, the trace of
    diagnostics handed to a host ([emitted], oldest first, each with the
    address of the host that received it), and the store the handlers act
    on. *)
Record Memory (LocationToken SinkStore : Type) : Type := mkMemory {
  contexts : gmap addr (ExecutionContext LocationToken);
  hosts : gmap addr (HostContext SinkStore);
  emitted : list (addr * DecodedDiagnostic);
  sink : SinkStore
}.

Arguments mkMemory {LocationToken SinkStore} _ _ _ _.
Arguments contexts {LocationToken SinkStore} _.
Arguments hosts {LocationToken SinkStore} _.
Arguments emitted {LocationToken SinkStore} _.
Arguments sink {LocationToken SinkStore} _.

Section Emission.
Context {LocationToken SinkStore : Type}.
Context {locations : LocationHandler LocationToken}.

Local Abbreviation Memory := (Memory LocationToken SinkStore).

(** Computations over the memory; [None] is a run with no defined
    behaviour (a dereference of an address that holds no object). *)
Definition M (A : Type) : Type := Memory -> option (A * Memory).

Definition ret {A : Type} (a : A) : M A := fun m => Some (a, m).

Definition bind {A B : Type} (c : M A) (k : A -> M B) : M B :=
  fun m =>
    match c m with
    | Some (a, m') => k a m'
    | None => None
    end.

Notation "x <- c ;; k" := (bind c (fun x => k))
  (at level 100, c at next level, right associativity).
Notation "c ;; k" := (bind c (fun _ => k))
  (at level 100, right associativity).

(** [exec_ctx.location()]: a read through the reference. *)
Definition ExecutionContext_location (exec_ctx : addr)
    : M (option LocationToken) :=
  fun m =>
    match contexts m !! exec_ctx with
    | Some ctx => Some (ctx_location ctx, m)
    | None => None
    end.

(** [exec_ctx.host()]: a read through the reference. *)
Definition ExecutionContext_host (exec_ctx : addr) : M addr :=
  fun m =>
    match contexts m !! exec_ctx with
    | Some ctx => Some (ctx_host ctx, m)
    | None => None
    end.

(** [location.Decode()] as a step of a computation: it reads nothing of the
    memory and writes nothing to it. *)
Definition Location_Decode (token : option LocationToken)
    : M (option DecodedLocation) :=
  ret (Decode token).

(** Modelled from the spec: what the registered handler makes of a
    diagnostic.  A failure to notify is swallowed: an unset handler and a
    handler that fails both leave the store as it was. *)
Definition notify (host : HostContext SinkStore) (diag : DecodedDiagnostic)
    (s : SinkStore) : SinkStore :=
  match diag_handler host with
  | Some handler =>
      match handler diag s with
      | Some s' => s'
      | None => s
      end
  | None => s
  end.

(** Modelled from the spec: [HostContext::EmitError] is declared in
    [tfrt/host_context/host_context.h], which is not among the sources.
    The host is the sink reachable from the context: a call hands it one
    diagnostic, which is recorded in [emitted]; the host passes the
    diagnostic to its handler, and a failure to notify (handler unset, or
    not doing its work) is tolerated silently.  The host object itself is
    not modified. *)
Definition HostContext_EmitError (host : addr) (diag : DecodedDiagnostic)
    : M unit :=
  fun m =>
    match hosts m !! host with
    | Some h =>
        Some (tt, {| contexts := contexts m;
                     hosts := hosts m;
                     emitted := emitted m ++ [(host, diag)];
                     sink := notify h diag (sink m) |})
    | None => None
    end.

(** [DecodedDiagnostic EmitError(const ExecutionContext& exec_ctx,
                                 string_view message)] *)
Definition EmitError (exec_ctx : addr) (message : string)
    : M DecodedDiagnostic :=
  loc <- ExecutionContext_location exec_ctx ;;
  decoded_loc <- Location_Decode loc ;;
  let diag := DecodedDiagnostic_of_location decoded_loc message in
  host <- ExecutionContext_host exec_ctx ;;
  HostContext_EmitError host diag ;;
  ret diag.

(** A call can be made when the context reference holds an object whose
    host pointer holds one. *)
Definition callable (m : Memory) (call : addr * string) : Prop :=
  exists ctx h,
    contexts m !! call.1 = Some ctx /\ hosts m !! ctx_host ctx = Some h.

(** A run of calls one after the other, as a caller that emits several
    diagnostics does; the results are collected in call order. *)
Fixpoint EmitErrors (calls : list (addr * string))
    : M (list DecodedDiagnostic) :=
  match calls with
  | [] => ret []
  | (exec_ctx, message) :: rest =>
      diag <- EmitError exec_ctx message ;;
      diags <- EmitErrors rest ;;
      ret (diag :: diags)
  end.

End Emission.

(** ** Sample objects

    A small configuration on which the definitions can be run: a location
    table with one resolvable token, three hosts (a logging handler, no
    handler, a handler that fails) and four execution contexts. *)

(** An error value in the style of [llvm::StringError]: streaming it writes
    its message. *)
Record StringError : Type := mkStringError { Msg : string }.

#[global] Instance StringError_Streamable : Streamable StringError :=
  fun os e => os << Msg e.

(** Token [7] is the only one the sample handler can resolve. *)
Definition sample_locations : LocationHandler N :=
  fun t => if decide (t = 7) then Resolved "f.cc" 3 1 else Unresolvable.

(** A handler that appends the rendered diagnostic to a log. *)
Definition logging_handler : DiagHandler (list string) :=
  fun diag log => Some (log ++ [format diag]).

(** A handler that never does its work. *)
Definition failing_handler : DiagHandler (list string) :=
  fun _ _ => None.

(** The same contexts in a memory whose only host has a failing handler
    and whose sink already holds a line. *)
Definition sample_memory_failing : Memory N (list string) :=
  {| contexts :=
       <[1 := mkExecutionContext None 10]>
       (<[2 := mkExecutionContext (Some 7) 10]> ∅);
     hosts := <[10 := mkHostContext (Some failing_handler)]> ∅;
     emitted := [(10, {| location := None; message := "earlier" |})];
     sink := ["UnknownLocation: earlier"] |}.

Definition sample_memory : Memory N (list string) :=
  {| contexts :=
       <[1 := mkExecutionContext None 10]>
       (<[2 := mkExecutionContext (Some 7) 10]>
       (<[3 := mkExecutionContext (Some 7) 11]>
       (<[4 := mkExecutionContext (Some 8) 12]> ∅)));
     hosts :=
       <[10 := mkHostContext (Some logging_handler)]>
       (<[11 := mkHostContext None]>
       (<[12 := mkHostContext (Some failing_handler)]> ∅));
     emitted := [];
     sink := [] |}.

(** * Properties *)

(** ** Text *)

Lemma append_assoc (a b c : string) : (a +:+ b) +:+ c = a +:+ (b +:+ c).
Proof.
  induction a as [|ch a IH]; [reflexivity|].
  change (String ch ((a +:+ b) +:+ c) = String ch (a +:+ (b +:+ c))).
  f_equal; exact IH.
Qed.

Lemma append_nil_r (a : string) : a +:+ "" = a.
Proof.
  induction a as [|ch a IH]; [reflexivity|].
  change (String ch (a +:+ "") = String ch a).
  f_equal; exact IH.
Qed.

Lemma append_length (a b : string) :
  String.length (a +:+ b) = (String.length a + String.length b)%nat.
Proof.
  induction a as [|ch a IH]; [reflexivity|].
  change (S (String.length (a +:+ b))
          = S (String.length a + String.length b)).
  now rewrite IH.
Qed.

Lemma stream_string (os : raw_ostream) (s : string) :
  str (os << s) = str os +:+ s.
Proof. reflexivity. Qed.

Lemma stream_unsigned (os : raw_ostream) (n : N) :
  str (os << n) = str os +:+ pretty n.
Proof. reflexivity. Qed.

(** Push [str] through a chain of [<<] and reassociate the appends. *)
Ltac stream_text :=
  repeat first [rewrite stream_string | rewrite stream_unsigned];
  rewrite ?append_assoc.

(** Streaming a diagnostic appends its prefix and its message to whatever
    the stream already holds. *)
Lemma stream_DecodedDiagnostic (os : raw_ostream) (diag : DecodedDiagnostic) :
  str (os << diag) = str os +:+ prefix (location diag) +:+ message diag.
Proof.
  destruct diag as [[loc|] msg]; unfold stream_out at 1;
    unfold DecodedDiagnostic_Streamable; cbn [location message prefix].
  - now stream_text.
  - now stream_text.
Qed.

Lemma format_prefix (diag : DecodedDiagnostic) :
  format diag = prefix (location diag) +:+ message diag.
Proof. unfold format, StrCat. now rewrite stream_DecodedDiagnostic. Qed.

(** C2: [format] renders a diagnostic with a location as
    ["<filename>:<line>:<column>: <message>"] and one without as
    ["UnknownLocation: <message>"]; the two sample renderings of the
    specification are ["a.cc:10:5: bad thing"] and
    ["UnknownLocation: bad thing"]. *)
Theorem format_renders :
  (forall (f : string) (l c : N) (msg : string),
     format {| location := Some (mkDecodedLocation f l c); message := msg |}
     = f +:+ ":" +:+ pretty l +:+ ":" +:+ pretty c +:+ ": " +:+ msg) /\
  (forall msg : string,
     format {| location := None; message := msg |}
     = "UnknownLocation: " +:+ msg) /\
  format {| location := Some (mkDecodedLocation "a.cc" 10 5);
            message := "bad thing" |} = "a.cc:10:5: bad thing" /\
  format {| location := None; message := "bad thing" |}
  = "UnknownLocation: bad thing".
Proof.
  split; [|split; [|split]].
  - intros f l c msg. rewrite format_prefix. cbn [prefix location message
      filename line column]. now rewrite !append_assoc.
  - intros msg. now rewrite format_prefix.
  - vm_compute. reflexivity.
  - vm_compute. reflexivity.
Qed.

(** C9: a diagnostic with the empty message is rendered like any other:
    the full prefix with its separator and trailing space, and nothing after
    it.  The rendering of any message is the rendering of the empty one
    followed by the message, so the empty message has no case of its own. *)
Theorem format_empty_message :
  format {| location := None; message := "" |} = "UnknownLocation: " /\
  (forall (f : string) (l c : N),
     format {| location := Some (mkDecodedLocation f l c); message := "" |}
     = f +:+ ":" +:+ pretty l +:+ ":" +:+ pretty c +:+ ": ") /\
  (forall (loc : option DecodedLocation) (msg : string),
     format {| location := loc; message := msg |}
     = format {| location := loc; message := "" |} +:+ msg).
Proof.
  split; [|split].
  - vm_compute. reflexivity.
  - intros f l c. rewrite format_prefix. cbn [prefix location message
      filename line column]. now rewrite !append_assoc, append_nil_r.
  - intros loc msg. rewrite !format_prefix. cbn [location message].
    now rewrite append_nil_r.
Qed.

Example format_zero_position :
  format {| location := Some (mkDecodedLocation "" 0 4294967295);
            message := "x" |} = ":0:4294967295: x".
Proof. vm_compute. reflexivity. Qed.

Example format_empty_located :
  format {| location := Some (mkDecodedLocation "a.cc" 10 5); message := "" |}
  = "a.cc:10:5: ".
Proof. vm_compute. reflexivity. Qed.

(** *** Streams are appended to *)

(** X1: [operator<<] on a diagnostic keeps what the stream already holds
    and appends the rendering, so diagnostics streamed one after the other
    come out as their renderings side by side, in the order written. *)
Theorem stream_appends_format (os : raw_ostream) (d1 d2 : DecodedDiagnostic) :
  str (os << d1) = str os +:+ format d1 /\
  str (os << d1 << d2) = str os +:+ format d1 +:+ format d2.
Proof.
  rewrite !stream_DecodedDiagnostic, !format_prefix.
  now rewrite !append_assoc.
Qed.

(** *** What the text tells about the diagnostic *)

Lemma all_chars_app (P : ascii -> bool) (a b : string) :
  all_chars P (a +:+ b) = all_chars P a && all_chars P b.
Proof.
  induction a as [|ch a IH]; [reflexivity|].
  change (P ch && all_chars P (a +:+ b)
          = P ch && all_chars P a && all_chars P b).
  now rewrite IH, andb_assoc.
Qed.

(** Two texts that agree, each a run of [P]-characters followed by a
    character outside [P], have the same run, the same stop character and
    the same rest. *)
Lemma split_at_stop (P : ascii -> bool) (a a' : string) (ch ch' : ascii)
    (r r' : string) :
  all_chars P a = true -> all_chars P a' = true ->
  P ch = false -> P ch' = false ->
  a +:+ String ch r = a' +:+ String ch' r' ->
  a = a' /\ ch = ch' /\ r = r'.
Proof.
  revert a'. induction a as [|x a IH]; intros [|x' a'] Ha Ha' Hch Hch' E.
  - injection E as -> ->. now repeat split.
  - change (String ch r = String x' (a' +:+ String ch' r')) in E.
    injection E as -> _. cbn in Ha'. rewrite Hch in Ha'. discriminate.
  - change (String x (a +:+ String ch r) = String ch' r') in E.
    injection E as -> _. cbn in Ha. rewrite Hch' in Ha. discriminate.
  - change (String x (a +:+ String ch r) = String x' (a' +:+ String ch' r'))
      in E.
    injection E as -> E. cbn in Ha, Ha'.
    apply andb_true_iff in Ha as [_ Ha], Ha' as [_ Ha'].
    destruct (IH a' Ha Ha' Hch Hch' E) as (-> & -> & ->).
    now repeat split.
Qed.

Lemma pretty_N_char_digit (x : N) : is_digit (pretty_N_char x) = true.
Proof. unfold pretty_N_char. now repeat case_match. Qed.

(** The digit loop puts digits, and only digits, before what it was
    given; at least one when the number is positive. *)
Lemma pretty_N_go_digits (x : N) (s : string) :
  exists p, pretty_N_go x s = p +:+ s /\ all_chars is_digit p = true /\
            (0 < x -> p <> "").
Proof.
  revert s. induction (N.lt_wf_0 x) as [x _ IH]; intros s.
  destruct (decide (x = 0)) as [->|Hx].
  - exists "". rewrite pretty_N_go_0. repeat split. lia.
  - rewrite pretty_N_go_step by lia.
    destruct (IH (x `div` 10)
                (N.div_lt x 10 ltac:(lia) ltac:(lia))
                (String (pretty_N_char (x `mod` 10)) s))
      as (p & -> & Hp & _).
    exists (p +:+ String (pretty_N_char (x `mod` 10)) "").
    split; [now rewrite append_assoc|]. split.
    + rewrite all_chars_app, Hp. cbn.
      now rewrite pretty_N_char_digit.
    + intros _. destruct p; discriminate.
Qed.

(** A printed number is a non-empty run of digits. *)
Lemma pretty_digits (n : N) :
  all_chars is_digit (pretty n) = true /\ pretty n <> "".
Proof.
  unfold pretty, pretty_N. destruct (decide (n = 0)) as [->|Hn].
  - split; [reflexivity | discriminate].
  - destruct (pretty_N_go_digits n "") as (p & -> & Hp & Hne).
    rewrite append_nil_r. split; [exact Hp | apply Hne; lia].
Qed.

Lemma digits_colon_free (s : string) :
  all_chars is_digit s = true -> colon_free s = true.
Proof.
  unfold colon_free. induction s as [|ch s IH]; [reflexivity|].
  cbn. intros [Hd Hs]%andb_true_iff. rewrite (IH Hs), andb_true_r.
  unfold is_colon. destruct (Ascii.eqb_spec ch ":") as [->|]; [|reflexivity].
  discriminate Hd.
Qed.

(** Two located renderings that agree, with filenames free of the
    separator, come from the same fields. *)
Lemma located_text_inj (f f' : string) (l l' c c' : N) (msg msg' : string) :
  colon_free f = true -> colon_free f' = true ->
  prefix (Some (mkDecodedLocation f l c)) +:+ msg
  = prefix (Some (mkDecodedLocation f' l' c')) +:+ msg' ->
  f = f' /\ l = l' /\ c = c' /\ msg = msg'.
Proof.
  intros Hf Hf'. cbn [prefix filename line column].
  rewrite !append_assoc. intros E.
  destruct (pretty_digits l) as [Hl _], (pretty_digits l') as [Hl' _].
  destruct (pretty_digits c) as [Hc _], (pretty_digits c') as [Hc' _].
  apply (split_at_stop (fun ch => negb (is_colon ch))) in E
    as (-> & _ & E); [|assumption..|reflexivity|reflexivity].
  apply (split_at_stop (fun ch => negb (is_colon ch))) in E
    as (El & _ & E);
    [|now apply digits_colon_free..|reflexivity|reflexivity].
  apply (split_at_stop (fun ch => negb (is_colon ch))) in E
    as (Ec & _ & E);
    [|now apply digits_colon_free..|reflexivity|reflexivity].
  apply (inj pretty) in El, Ec. injection E as ->.
  now repeat split.
Qed.

(** A located rendering, with a filename free of the separator, is never
    an unknown-location line. *)
Lemma located_text_not_unknown (f : string) (l c : N) (msg msg' : string) :
  colon_free f = true ->
  prefix (Some (mkDecodedLocation f l c)) +:+ msg <> prefix None +:+ msg'.
Proof.
  intros Hf. cbn [prefix filename line column].
  rewrite !append_assoc. intros E.
  change ("UnknownLocation: " +:+ msg')
    with ("UnknownLocation" +:+ String ":" (" " +:+ msg')) in E.
  apply (split_at_stop (fun ch => negb (is_colon ch))) in E
    as (_ & _ & E); [|assumption|reflexivity..].
  destruct (pretty_digits l) as [Hl Hne].
  destruct (pretty l) as [|d digits]; [now apply Hne|].
  change (String d (digits +:+ ":" +:+ pretty c +:+ ": " +:+ msg)
          = String " " msg') in E.
  injection E as -> _. discriminate Hl.
Qed.

(** X2: the rendering tells the diagnostic.  Two diagnostics whose
    filenames, where present, do not contain [:] and that render to the same
    text are the same diagnostic: same presence of a location, same
    filename, line and column, same message. *)
Theorem format_inj (d d' : DecodedDiagnostic) :
  plain_filename d -> plain_filename d' ->
  format d = format d' -> d = d'.
Proof.
  rewrite !format_prefix.
  destruct d as [[[f l c]|] msg], d' as [[[f' l' c']|] msg'];
    unfold plain_filename; cbn [location message filename].
  - intros Hf Hf' E.
    now destruct (located_text_inj _ _ _ _ _ _ _ _ Hf Hf' E)
      as (-> & -> & -> & ->).
  - intros Hf _ E. now apply located_text_not_unknown in E.
  - intros _ Hf' E. symmetry in E. now apply located_text_not_unknown in E.
  - intros _ _ E. cbn [prefix] in E.
    now apply (inj (String.append "UnknownLocation: ")) in E as ->.
Qed.

(** X3: without that condition the rendering is ambiguous.  The text of a
    located diagnostic whose message is itself a located rendering is also
    the text of a diagnostic whose filename swallows the outer position, so
    different diagnostics can render alike. *)
Theorem format_ambiguous (f f' : string) (l c l' c' : N) (msg : string) :
  format {| location := Some (mkDecodedLocation f l c);
            message := format {| location := Some (mkDecodedLocation f' l' c');
                                 message := msg |} |}
  = format {| location :=
                Some (mkDecodedLocation
                        (f +:+ ":" +:+ pretty l +:+ ":" +:+ pretty c +:+ ": "
                           +:+ f') l' c');
              message := msg |} /\
  {| location := Some (mkDecodedLocation f l c);
     message := format {| location := Some (mkDecodedLocation f' l' c');
                          message := msg |} |}
  <> {| location :=
          Some (mkDecodedLocation
                  (f +:+ ":" +:+ pretty l +:+ ":" +:+ pretty c +:+ ": "
                     +:+ f') l' c');
        message := msg |}.
Proof.
  split.
  - rewrite !format_prefix.
    cbn [prefix location message filename line column].
    now rewrite !append_assoc.
  - intros E. injection E as Ef _.
    apply (f_equal String.length) in Ef.
    rewrite !append_length in Ef. cbn in Ef. lia.
Qed.

(** ** Construction from an error value *)

Section FromError.
Context {Error : Type} `{Streamable Error}.

(** C6: a diagnostic constructed from an error value has the error's
    stringification as its message and no location; a location assigned
    afterwards is the only way it gets one, and the message stays. *)
Theorem DecodedDiagnostic_of_Error_fields (error : Error) :
  message (DecodedDiagnostic_of_Error error) = StrCat error /\
  location (DecodedDiagnostic_of_Error error) = None /\
  (forall loc : DecodedLocation,
     location (set_location loc (DecodedDiagnostic_of_Error error)) = Some loc /\
     message (set_location loc (DecodedDiagnostic_of_Error error))
     = StrCat error).
Proof.
  split; [reflexivity|]. split; [reflexivity|].
  intros loc. split; reflexivity.
Qed.

(** X4: a diagnostic constructed from an error value renders as an
    unknown-location line that carries the text of the error. *)
Theorem format_of_Error (error : Error) :
  format (DecodedDiagnostic_of_Error error)
  = "UnknownLocation: " +:+ StrCat error.
Proof. now rewrite format_prefix. Qed.

End FromError.

Example DecodedDiagnostic_of_StringError :
  DecodedDiagnostic_of_Error (mkStringError "invalid argument")
  = {| location := None; message := "invalid argument" |}.
Proof. reflexivity. Qed.

(** ** Emission *)

Section EmissionProperties.
Context {LocationToken SinkStore : Type}.
Context {locations : LocationHandler LocationToken}.

Local Abbreviation Memory := (Memory LocationToken SinkStore).

Local Notation "x <- c ;; k" := (bind c (fun x => k))
  (at level 100, c at next level, right associativity).

Implicit Types (m : Memory) (exec_ctx host : addr) (msg : string).
Implicit Types (ctx : ExecutionContext LocationToken).
Implicit Types (h : HostContext SinkStore) (diag : DecodedDiagnostic).
Implicit Types (token : option LocationToken) (t : LocationToken).

(** *** The decoder *)

Lemma Decode_absent : Decode (None : option LocationToken) = None.
Proof. reflexivity. Qed.

Lemma Decode_resolved t f l c :
  resolve t = Resolved f l c ->
  Decode (Some t) = Some (mkDecodedLocation f l c).
Proof. intros E. unfold Decode. now rewrite E. Qed.

Lemma Decode_unresolvable t :
  resolve t = Unresolvable -> Decode (Some t) = None.
Proof. intros E. unfold Decode. now rewrite E. Qed.

Lemma Decode_None_iff token :
  Decode token = None <->
  token = None \/ exists t, token = Some t /\ resolve t = Unresolvable.
Proof.
  split.
  - destruct token as [t|]; [|now left].
    unfold Decode. destruct (resolve t) eqn:E; [discriminate|].
    intros _. right. now exists t.
  - intros [-> | (t & -> & E)]; [reflexivity|].
    now apply Decode_unresolvable.
Qed.

Lemma Location_Decode_pure token m :
  Location_Decode token m = Some (Decode token, m).
Proof. reflexivity. Qed.

(** *** What a call does *)

(** A call on a context that holds an object whose host pointer holds an
    object runs to completion; this is its result and the memory it
    leaves. *)
Lemma EmitError_run m exec_ctx ctx h msg :
  contexts m !! exec_ctx = Some ctx ->
  hosts m !! ctx_host ctx = Some h ->
  EmitError exec_ctx msg m =
    Some (DecodedDiagnostic_of_location (Decode (ctx_location ctx)) msg,
          {| contexts := contexts m;
             hosts := hosts m;
             emitted :=
               emitted m ++
               [(ctx_host ctx,
                 DecodedDiagnostic_of_location (Decode (ctx_location ctx)) msg)];
             sink :=
               notify h
                 (DecodedDiagnostic_of_location (Decode (ctx_location ctx)) msg)
                 (sink m) |}).
Proof.
  intros Hctx Hhost.
  unfold EmitError, bind, ExecutionContext_location, ExecutionContext_host,
    Location_Decode, HostContext_EmitError, ret.
  rewrite Hctx. cbn beta iota. rewrite Hctx. cbn beta iota.
  now rewrite Hhost.
Qed.

(** Conversely, a call that completes was made on such a context. *)
Lemma EmitError_defined m exec_ctx msg diag m' :
  EmitError exec_ctx msg m = Some (diag, m') ->
  exists ctx h,
    contexts m !! exec_ctx = Some ctx /\ hosts m !! ctx_host ctx = Some h.
Proof.
  unfold EmitError, bind, ExecutionContext_location, ExecutionContext_host,
    Location_Decode, HostContext_EmitError, ret.
  destruct (contexts m !! exec_ctx) as [ctx|] eqn:Hctx; [|discriminate].
  cbn beta iota. rewrite Hctx. cbn beta iota.
  destruct (hosts m !! ctx_host ctx) as [h|] eqn:Hhost; [|discriminate].
  intros _. now exists ctx, h.
Qed.

Lemma notify_unset h diag (s : SinkStore) :
  diag_handler h = None -> notify h diag s = s.
Proof. intros E. unfold notify. now rewrite E. Qed.

Lemma notify_failed h handler diag (s : SinkStore) :
  diag_handler h = Some handler -> handler diag s = None ->
  notify h diag s = s.
Proof. intros E F. unfold notify. now rewrite E, F. Qed.

Lemma notify_handled h handler diag (s s' : SinkStore) :
  diag_handler h = Some handler -> handler diag s = Some s' ->
  notify h diag s = s'.
Proof. intros E F. unfold notify. now rewrite E, F. Qed.

(** C1: [EmitError] returns a diagnostic whose message is the message
    given and whose location is the decoded location token of the context:
    none when the token is absent, and a diagnostic that renders as
    ["<f>:<l>:<c>: <m>"] when the token resolves to [(f, l, c)]. *)
Theorem EmitError_returns m exec_ctx ctx msg :
  contexts m !! exec_ctx = Some ctx ->
  is_Some (hosts m !! ctx_host ctx) ->
  exists diag m',
    EmitError exec_ctx msg m = Some (diag, m') /\
    message diag = msg /\
    location diag = Decode (ctx_location ctx) /\
    (ctx_location ctx = None -> location diag = None) /\
    (forall t f l c,
       ctx_location ctx = Some t -> resolve t = Resolved f l c ->
       format diag
       = f +:+ ":" +:+ pretty l +:+ ":" +:+ pretty c +:+ ": " +:+ msg).
Proof.
  intros Hctx [h Hhost].
  eexists _, _. split; [exact (EmitError_run _ _ _ _ _ Hctx Hhost)|].
  cbn [DecodedDiagnostic_of_location message location].
  split; [reflexivity|]. split; [reflexivity|]. split.
  - now intros ->.
  - intros t f l c -> E. rewrite (Decode_resolved _ _ _ _ E).
    rewrite format_prefix.
    cbn [DecodedDiagnostic_of_location prefix location message
         filename line column].
    now rewrite !append_assoc.
Qed.

(** C3: a call hands exactly one diagnostic to the host reachable from the
    context, and it is the diagnostic returned: the trace of the host calls
    grows by that single entry, and a handler that does its work is run
    once, on that diagnostic. *)
Theorem EmitError_delivers_once m exec_ctx ctx h msg :
  contexts m !! exec_ctx = Some ctx ->
  hosts m !! ctx_host ctx = Some h ->
  exists diag m',
    EmitError exec_ctx msg m = Some (diag, m') /\
    emitted m' = emitted m ++ [(ctx_host ctx, diag)] /\
    length (emitted m') = S (length (emitted m)) /\
    (forall handler s',
       diag_handler h = Some handler -> handler diag (sink m) = Some s' ->
       sink m' = s').
Proof.
  intros Hctx Hhost.
  eexists _, _. split; [exact (EmitError_run _ _ _ _ _ Hctx Hhost)|].
  cbn [emitted sink]. split; [reflexivity|]. split.
  - rewrite length_app. cbn [length]. lia.
  - intros handler s' E F. now apply (notify_handled _ handler).
Qed.

(** C4: decoding gives an optional location and nothing else: an absent
    token gives none and leaves the memory as it was, a token that cannot
    be resolved gives none, and these are the only ways to get none, for the
    decoder and for the diagnostic built from its result. *)
Theorem Decode_degrades :
  Decode (None : option LocationToken) = None /\
  (forall m, Location_Decode None m = Some (None, m)) /\
  (forall t, resolve t = Unresolvable -> Decode (Some t) = None) /\
  (forall token,
     Decode token = None <->
     token = None \/ exists t, token = Some t /\ resolve t = Unresolvable) /\
  (forall m exec_ctx ctx msg diag m',
     contexts m !! exec_ctx = Some ctx ->
     EmitError exec_ctx msg m = Some (diag, m') ->
     location diag = None <->
     ctx_location ctx = None \/
     exists t, ctx_location ctx = Some t /\ resolve t = Unresolvable).
Proof.
  split; [exact Decode_absent|].
  split; [intros m; apply Location_Decode_pure|].
  split; [exact Decode_unresolvable|].
  split; [exact Decode_None_iff|].
  intros m exec_ctx ctx msg diag m' Hctx Hrun.
  destruct (EmitError_defined _ _ _ _ _ Hrun) as (ctx' & h & Hctx' & Hhost).
  assert (ctx' = ctx) as -> by congruence.
  rewrite (EmitError_run _ _ _ _ _ Hctx Hhost) in Hrun.
  injection Hrun as <- _.
  cbn [DecodedDiagnostic_of_location location].
  apply Decode_None_iff.
Qed.

(** C5: decoding is a function of the token alone.  A token that resolves
    to [(f, l, c)] decodes to that location; two decodings of one token,
    run one after the other from any memory, give the same result twice and
    leave the memory as it was. *)
Theorem Decode_deterministic t f l c m :
  resolve t = Resolved f l c ->
  Decode (Some t) = Some (mkDecodedLocation f l c) /\
  (d1 <- Location_Decode (Some t) ;;
   d2 <- Location_Decode (Some t) ;;
   ret (d1, d2)) m
  = Some ((Some (mkDecodedLocation f l c), Some (mkDecodedLocation f l c)), m).
Proof.
  intros E. split; [now apply Decode_resolved|].
  unfold bind. rewrite !Location_Decode_pure.
  now rewrite (Decode_resolved _ _ _ _ E).
Qed.

(** Whatever the token, decoding it twice gives equal results and no
    effect. *)
Lemma Location_Decode_twice token m :
  (d1 <- Location_Decode token ;;
   d2 <- Location_Decode token ;;
   ret (d1, d2)) m
  = Some ((Decode token, Decode token), m).
Proof. reflexivity. Qed.

(** C7: a sink that cannot be notified does not stop the call.  When the
    handler of the host is unset, or is set and fails on the diagnostic,
    [EmitError] still completes and returns the diagnostic it built, and
    the failure leaves no mark on the store of the sink. *)
Theorem EmitError_tolerates_sink_failure m exec_ctx ctx h msg :
  contexts m !! exec_ctx = Some ctx ->
  hosts m !! ctx_host ctx = Some h ->
  diag_handler h = None \/
  (exists handler,
     diag_handler h = Some handler /\
     handler (DecodedDiagnostic_of_location (Decode (ctx_location ctx)) msg)
       (sink m) = None) ->
  exists m',
    EmitError exec_ctx msg m
    = Some (DecodedDiagnostic_of_location (Decode (ctx_location ctx)) msg, m')
    /\ sink m' = sink m.
Proof.
  intros Hctx Hhost Hsink.
  eexists. split; [exact (EmitError_run _ _ _ _ _ Hctx Hhost)|].
  cbn [sink]. destruct Hsink as [E | (handler & E & F)].
  - now apply notify_unset.
  - now apply (notify_failed _ handler).
Qed.

(** C10: a call leaves the execution context and the host as they were.
    The context objects and the host objects of the memory are the same
    after the call as before it, so the context still holds the same
    location token and the same host pointer, and the host the same
    handler; what changes is confined to the trace and the store of the
    sink. *)
Theorem EmitError_frame m exec_ctx ctx msg :
  contexts m !! exec_ctx = Some ctx ->
  is_Some (hosts m !! ctx_host ctx) ->
  exists diag m',
    EmitError exec_ctx msg m = Some (diag, m') /\
    contexts m' = contexts m /\
    hosts m' = hosts m /\
    contexts m' !! exec_ctx = Some ctx /\
    hosts m' !! ctx_host ctx = hosts m !! ctx_host ctx /\
    m' = {| contexts := contexts m; hosts := hosts m;
            emitted := emitted m'; sink := sink m' |}.
Proof.
  intros Hctx [h Hhost].
  eexists _, _. split; [exact (EmitError_run _ _ _ _ _ Hctx Hhost)|].
  cbn [contexts hosts emitted sink]. now repeat split.
Qed.

(** *** Runs of calls *)

Lemma bind_Some {A B : Type} (c : M A) (k : A -> M B) m (b : B) m'' :
  bind c k m = Some (b, m'') <->
  exists a m', c m = Some (a, m') /\ k a m' = Some (b, m'').
Proof.
  unfold bind. split.
  - destruct (c m) as [[a m']|]; [|discriminate]. intros E. now exists a, m'.
  - intros (a & m' & -> & E). exact E.
Qed.

(** What a completed call leaves behind, whatever the context. *)
Lemma EmitError_effect m exec_ctx msg diag m' :
  EmitError exec_ctx msg m = Some (diag, m') ->
  contexts m' = contexts m /\ hosts m' = hosts m /\
  (emitted m').*2 = (emitted m).*2 ++ [diag].
Proof.
  intros Hrun.
  destruct (EmitError_defined _ _ _ _ _ Hrun) as (ctx & h & Hctx & Hhost).
  rewrite (EmitError_run _ _ _ _ _ Hctx Hhost) in Hrun.
  injection Hrun as <- <-. cbn [contexts hosts emitted].
  split; [reflexivity|]. split; [reflexivity|].
  now rewrite fmap_app.
Qed.

(** [n] calls made one after the other give [n] diagnostics and put exactly
    these, in call order, on the trace. *)
Lemma EmitErrors_trace (calls : list (addr * string)) m diags m' :
  EmitErrors calls m = Some (diags, m') ->
  length diags = length calls /\
  (emitted m').*2 = (emitted m).*2 ++ diags /\
  contexts m' = contexts m /\ hosts m' = hosts m.
Proof.
  revert m diags m'.
  induction calls as [|[exec_ctx msg] calls IH]; intros m diags m'.
  - cbn [EmitErrors]. unfold ret. intros [= <- <-].
    now rewrite app_nil_r.
  - cbn [EmitErrors]. intros Hrun.
    apply bind_Some in Hrun as (diag & m1 & Hcall & Hrun).
    apply bind_Some in Hrun as (rest & m2 & Hrest & Hret).
    unfold ret in Hret. injection Hret as <- <-.
    destruct (EmitError_effect _ _ _ _ _ Hcall) as (Hc1 & Hh1 & He1).
    destruct (IH _ _ _ Hrest) as (Hlen & He2 & Hc2 & Hh2).
    cbn [length]. rewrite Hlen, He2, He1, Hc2, Hc1, Hh2, Hh1.
    now rewrite <- app_assoc.
Qed.

(** And such a run completes when every call in it can be made at the
    start: no call disturbs what a later one reads. *)
Lemma EmitErrors_total (calls : list (addr * string)) m :
  Forall (callable m) calls ->
  exists diags m', EmitErrors calls m = Some (diags, m').
Proof.
  revert m. induction calls as [|[exec_ctx msg] calls IH]; intros m Hall.
  - now exists [], m.
  - apply Forall_cons in Hall as [(ctx & h & Hctx & Hhost) Hall].
    cbn [fst] in Hctx.
    pose proof (EmitError_run _ _ _ _ msg Hctx Hhost) as Hcall.
    set (m1 := mkMemory _ _ _ _) in Hcall.
    destruct (IH m1) as (rest & m2 & Hrest).
    { eapply Forall_impl; [exact Hall|].
      intros call (ctx' & h' & Hctx' & Hhost'). now exists ctx', h'. }
    exists (DecodedDiagnostic_of_location (Decode (ctx_location ctx)) msg
              :: rest), m2.
    cbn [EmitErrors]. unfold bind at 1. rewrite Hcall.
    unfold bind at 1. now rewrite Hrest.
Qed.

Lemma EmitError_message m exec_ctx msg diag m' :
  EmitError exec_ctx msg m = Some (diag, m') -> message diag = msg.
Proof.
  intros Hrun.
  destruct (EmitError_defined _ _ _ _ _ Hrun) as (ctx & h & Hctx & Hhost).
  rewrite (EmitError_run _ _ _ _ _ Hctx Hhost) in Hrun.
  now injection Hrun as <- _.
Qed.

Lemma EmitErrors_messages (calls : list (addr * string)) m diags m' :
  EmitErrors calls m = Some (diags, m') -> map message diags = calls.*2.
Proof.
  revert m diags m'.
  induction calls as [|[exec_ctx msg] calls IH]; intros m diags m'.
  - cbn [EmitErrors]. unfold ret. now intros [= <- _].
  - cbn [EmitErrors]. intros Hrun.
    apply bind_Some in Hrun as (diag & m1 & Hcall & Hrun).
    apply bind_Some in Hrun as (rest & m2 & Hrest & Hret).
    unfold ret in Hret. injection Hret as <- _.
    cbn. now rewrite (EmitError_message _ _ _ _ _ Hcall), (IH _ _ _ Hrest).
Qed.

(** X5: [EmitError] checks neither its reference nor the host pointer.  A
    call completes exactly when the context reference holds an object whose
    host pointer holds one; on any other memory it has no result at all, not
    even a diagnostic without delivery. *)
Theorem EmitError_defined_iff m exec_ctx msg :
  is_Some (EmitError exec_ctx msg m) <-> callable m (exec_ctx, msg).
Proof.
  split.
  - intros [[diag m'] Hrun]. exact (EmitError_defined _ _ _ _ _ Hrun).
  - intros (ctx & h & Hctx & Hhost). cbn [fst] in Hctx.
    rewrite (EmitError_run _ _ _ _ _ Hctx Hhost). now eexists.
Qed.

(** X6: the diagnostic returned does not depend on the host or the sink.
    Calls with the same message on the same context object return the same
    diagnostic from any two memories, whatever handlers are registered and
    whatever was emitted before. *)
Theorem EmitError_result_ignores_sink m1 m2 exec_ctx ctx msg :
  contexts m1 !! exec_ctx = Some ctx ->
  contexts m2 !! exec_ctx = Some ctx ->
  is_Some (hosts m1 !! ctx_host ctx) ->
  is_Some (hosts m2 !! ctx_host ctx) ->
  exists diag m1' m2',
    EmitError exec_ctx msg m1 = Some (diag, m1') /\
    EmitError exec_ctx msg m2 = Some (diag, m2').
Proof.
  intros Hctx1 Hctx2 [h1 Hhost1] [h2 Hhost2].
  eexists _, _, _. split.
  - exact (EmitError_run _ _ _ _ _ Hctx1 Hhost1).
  - exact (EmitError_run _ _ _ _ _ Hctx2 Hhost2).
Qed.

(** X7: calls compose.  A run of [n] calls, each of which could be made at
    the start, completes and returns [n] diagnostics that carry the
    messages of the calls in call order; the trace is extended by exactly
    these diagnostics, in that order, and the context and host objects are
    as before the run. *)
Theorem EmitErrors_run (calls : list (addr * string)) m :
  Forall (callable m) calls ->
  exists diags m',
    EmitErrors calls m = Some (diags, m') /\
    length diags = length calls /\
    map message diags = calls.*2 /\
    (emitted m').*2 = (emitted m).*2 ++ diags /\
    contexts m' = contexts m /\ hosts m' = hosts m.
Proof.
  intros Hall.
  destruct (EmitErrors_total calls m Hall) as (diags & m' & Hrun).
  exists diags, m'. split; [exact Hrun|].
  destruct (EmitErrors_trace _ _ _ _ Hrun) as (Hlen & Htrace & Hc & Hh).
  split; [exact Hlen|]. split; [exact (EmitErrors_messages _ _ _ _ Hrun)|].
  now repeat split.
Qed.

End EmissionProperties.

(** ** The sample objects at work *)

(** Context [1] has no location token: the diagnostic has no location, and
    the logging host receives one line. *)
Example EmitError_sample_unknown :
  (fun r => (r.1, emitted r.2, sink r.2))
    <$> EmitError (locations := sample_locations) 1 "oops" sample_memory
  = Some ({| location := None; message := "oops" |},
          [(10, {| location := None; message := "oops" |})],
          ["UnknownLocation: oops"]).
Proof. vm_compute. reflexivity. Qed.

(** Context [2] carries token [7], which resolves to [f.cc:3:1]. *)
Example EmitError_sample_located :
  (fun r => (format r.1, sink r.2))
    <$> EmitError (locations := sample_locations) 2 "oops" sample_memory
  = Some ("f.cc:3:1: oops", ["f.cc:3:1: oops"]).
Proof. vm_compute. reflexivity. Qed.

(** Context [4] carries a token that does not resolve, and its host has a
    handler that fails. *)
Example EmitError_sample_unresolvable :
  (fun r => (format r.1, emitted r.2, sink r.2))
    <$> EmitError (locations := sample_locations) 4 "oops" sample_memory
  = Some ("UnknownLocation: oops",
          [(12, {| location := None; message := "oops" |})],
          []).
Proof. vm_compute. reflexivity. Qed.

(** A context address that holds no object, or a host pointer that holds
    none, is outside what the code is written for. *)
Example EmitError_sample_dangling :
  EmitError (locations := sample_locations) 5 "oops" sample_memory = None.
Proof. vm_compute. reflexivity. Qed.

Example EmitErrors_sample :
  (fun r => (map format r.1, sink r.2))
    <$> (EmitErrors (locations := sample_locations)
           [(1, "a"); (3, "b"); (2, "c"); (4, "d")] sample_memory
         : option _)
  = Some (["UnknownLocation: a"; "f.cc:3:1: b"; "f.cc:3:1: c";
           "UnknownLocation: d"],
          ["UnknownLocation: a"; "f.cc:3:1: c"]).
Proof. vm_compute. reflexivity. Qed.

Lemma EmitError_returns_sample :
  exists diag m',
    EmitError (locations := sample_locations) 2 "oops" sample_memory
    = Some (diag, m') /\
    message diag = "oops" /\
    format diag = "f.cc:3:1: oops".
Proof.
  destruct (EmitError_returns (locations := sample_locations)
              sample_memory 2 (mkExecutionContext (Some 7) 10) "oops")
    as (diag & m' & Hrun & Hmsg & _ & _ & Hfmt).
  - vm_compute. reflexivity.
  - eexists. vm_compute. reflexivity.
  - exists diag, m'. split; [exact Hrun|]. split; [exact Hmsg|].
    apply (Hfmt 7 "f.cc" 3 1); vm_compute; reflexivity.
Defined.

Lemma EmitError_delivers_once_sample :
  exists diag m',
    EmitError (locations := sample_locations) 1 "oops" sample_memory
    = Some (diag, m') /\
    emitted m' = [(10, diag)] /\
    sink m' = [format diag].
Proof.
  destruct (EmitError_delivers_once (locations := sample_locations)
              sample_memory 1 (mkExecutionContext None 10)
              (mkHostContext (Some logging_handler)) "oops")
    as (diag & m' & Hrun & Htrace & _ & Hsink).
  - vm_compute. reflexivity.
  - vm_compute. reflexivity.
  - exists diag, m'. split; [exact Hrun|]. split; [exact Htrace|].
    apply (Hsink logging_handler); reflexivity.
Defined.

Lemma Decode_degrades_sample :
  Decode (locations := sample_locations) None = None /\
  Decode (locations := sample_locations) (Some 8) = None.
Proof.
  destruct (Decode_degrades (SinkStore := list string)
              (locations := sample_locations)) as (Habsent & _ & Hbad & _).
  split; [exact Habsent|]. apply Hbad. vm_compute. reflexivity.
Defined.

Lemma Decode_deterministic_sample :
  Decode (locations := sample_locations) (Some 7)
  = Some (mkDecodedLocation "f.cc" 3 1).
Proof.
  apply (Decode_deterministic (locations := sample_locations)
           7 "f.cc" 3 1 sample_memory).
  vm_compute. reflexivity.
Defined.

Lemma EmitError_tolerates_sink_failure_sample :
  (exists m',
     EmitError (locations := sample_locations) 3 "oops" sample_memory
     = Some ({| location := Some (mkDecodedLocation "f.cc" 3 1);
                message := "oops" |}, m') /\
     sink m' = []) /\
  (exists m',
     EmitError (locations := sample_locations) 4 "oops" sample_memory
     = Some ({| location := None; message := "oops" |}, m') /\
     sink m' = []).
Proof.
  split.
  - apply (EmitError_tolerates_sink_failure (locations := sample_locations)
             sample_memory 3 (mkExecutionContext (Some 7) 11)
             (mkHostContext None) "oops").
    + vm_compute. reflexivity.
    + vm_compute. reflexivity.
    + left. reflexivity.
  - apply (EmitError_tolerates_sink_failure (locations := sample_locations)
             sample_memory 4 (mkExecutionContext (Some 8) 12)
             (mkHostContext (Some failing_handler)) "oops").
    + vm_compute. reflexivity.
    + vm_compute. reflexivity.
    + right. exists failing_handler. split; reflexivity.
Defined.

Lemma EmitError_frame_sample :
  exists diag m',
    EmitError (locations := sample_locations) 2 "oops" sample_memory
    = Some (diag, m') /\
    contexts m' = contexts sample_memory /\
    hosts m' = hosts sample_memory.
Proof.
  destruct (EmitError_frame (locations := sample_locations)
              sample_memory 2 (mkExecutionContext (Some 7) 10) "oops")
    as (diag & m' & Hrun & Hc & Hh & _).
  - vm_compute. reflexivity.
  - eexists. vm_compute. reflexivity.
  - now exists diag, m'.
Defined.

Lemma format_inj_sample :
  {| location := Some (mkDecodedLocation "a.cc" 10 5); message := "bad" |}
  = {| location := Some (mkDecodedLocation "a.cc" 10 5); message := "bad" |}.
Proof.
  apply format_inj; vm_compute; reflexivity.
Defined.

Lemma EmitError_result_ignores_sink_sample :
  exists diag m1' m2',
    EmitError (locations := sample_locations) 2 "oops" sample_memory
    = Some (diag, m1') /\
    EmitError (locations := sample_locations) 2 "oops" sample_memory_failing
    = Some (diag, m2').
Proof.
  apply (EmitError_result_ignores_sink (locations := sample_locations)
           sample_memory sample_memory_failing 2
           (mkExecutionContext (Some 7) 10) "oops").
  - vm_compute. reflexivity.
  - vm_compute. reflexivity.
  - eexists. vm_compute. reflexivity.
  - eexists. vm_compute. reflexivity.
Defined.

Lemma EmitErrors_run_sample :
  exists diags m',
    EmitErrors (locations := sample_locations)
      [(1, "a"); (3, "b"); (4, "c")] sample_memory = Some (diags, m') /\
    map message diags = ["a"; "b"; "c"] /\
    (emitted m').*2 = diags.
Proof.
  destruct (EmitErrors_run (locations := sample_locations)
              [(1, "a"); (3, "b"); (4, "c")] sample_memory)
    as (diags & m' & Hrun & _ & Hmsg & Htrace & _).
  - repeat constructor;
      eexists _, _; split; vm_compute; reflexivity.
  - exists diags, m'. split; [exact Hrun|]. split; [exact Hmsg|].
    exact Htrace.
Defined.
